(** * Service Bus message sender and storage lease client

    A shallow embedding of [sendMessages.ts] (the sample that sends a list of
    scientists to a Service Bus queue) and of the [LeaseClient] class that is
    shipped in the same file.

    Both artifacts only talk to external collaborators (the Service Bus SDK,
    the generated storage REST operations).  A collaborator is modelled as a
    [Service]: a function that, given everything that happened so far and the
    call being made, settles the call (fulfils it with a reply or rejects it
    with an error).  Code runs in the monad [M]: it reads the past, appends
    the calls it makes to its output, may update a piece of local state, and
    ends fulfilled or rejected, like a promise. *)

From Stdlib Require Import String List Bool Arith Lia FinFun.
Import ListNotations.
Local Open Scope string_scope.
Local Open Scope list_scope.

(** ** Promises, awaited calls, try/finally *)

Module Async.

Section Async.
Variables Call Reply Err St : Type.

(** How a promise ends. *)
Inductive Settled (A : Type) : Type :=
| Fulfilled (a : A)
| Rejected (e : Err).

(** One call on a collaborator, with the way it was settled. *)
Definition Entry : Type := (Call * Settled Reply)%type.

(** The collaborator: the past and the call decide the outcome. *)
Definition Service : Type := list Entry -> Call -> Settled Reply.

Variable service : Service.

(** A computation: local state and past in; local state, the entries it
    appended, and its settlement out. *)
Definition M (A : Type) : Type :=
  St -> list Entry -> St * list Entry * Settled A.

Definition ret {A} (a : A) : M A :=
  fun s _ => (s, [], Fulfilled A a).

(** Sequencing.  A rejection skips the continuation, as a thrown
    exception skips the statements that follow. *)
Definition bind {A B} (m : M A) (k : A -> M B) : M B :=
  fun s past =>
    match m s past with
    | (s1, out1, Fulfilled _ a) =>
        match k a s1 (past ++ out1) with
        | (s2, out2, r) => (s2, out1 ++ out2, r)
        end
    | (s1, out1, Rejected _ e) => (s1, out1, Rejected B e)
    end.

(** [await collaborator.method(...)]: the call is recorded whatever its
    outcome. *)
Definition await (c : Call) : M Reply :=
  fun s past => (s, [(c, service past c)], service past c).

(** A synchronous call that cannot fail (console output). *)
Definition tell (c : Call) (r : Reply) : M unit :=
  fun s _ => (s, [(c, Fulfilled Reply r)], Fulfilled unit tt).

(** A synchronous call that returns [value] or throws [e] (when [thrown] is
    [Some e]): in an [async] function a throw rejects the promise.  Nothing
    is recorded. *)
Definition attempt {A} (thrown : option Err) (value : A) : M A :=
  fun s _ =>
    match thrown with
    | Some e => (s, [], Rejected A e)
    | None => (s, [], Fulfilled A value)
    end.

Definition get : M St :=
  fun s _ => (s, [], Fulfilled St s).

Definition put (s' : St) : M unit :=
  fun _ _ => (s', [], Fulfilled unit tt).

(** [try { body } finally { finalizer }]: the finalizer always runs; when
    it is rejected its error replaces the settlement of the body. *)
Definition try_finally {A} (body : M A) (finalizer : M unit) : M A :=
  fun s past =>
    match body s past with
    | (s1, out1, r) =>
        match finalizer s1 (past ++ out1) with
        | (s2, out2, Fulfilled _ _) => (s2, out1 ++ out2, r)
        | (s2, out2, Rejected _ e) => (s2, out1 ++ out2, Rejected A e)
        end
    end.

(** [promise.catch(handler)]. *)
Definition catch {A} (m : M A) (handler : Err -> M A) : M A :=
  fun s past =>
    match m s past with
    | (s1, out1, Fulfilled _ a) => (s1, out1, Fulfilled A a)
    | (s1, out1, Rejected _ e) =>
        match handler e s1 (past ++ out1) with
        | (s2, out2, r) => (s2, out1 ++ out2, r)
        end
    end.

(** [for (let index = start; index < start + count; index++) { body(index) }],
    left at the first rejection. *)
Fixpoint for_index (count start : nat) (body : nat -> M unit) : M unit :=
  match count with
  | 0 => ret tt
  | S count' => bind (body start) (fun _ => for_index count' (S start) body)
  end.

(** The same loop told by the elements visited: [body x] for each [x] of
    [xs] in turn, left at the first rejection. *)
Fixpoint for_each {X} (xs : list X) (body : X -> M unit) : M unit :=
  match xs with
  | [] => ret tt
  | x :: xs' => bind (body x) (fun _ => for_each xs' body)
  end.

(** Projections of a run. *)
Definition final_state {A} (run : St * list Entry * Settled A) : St :=
  fst (fst run).
Definition emitted {A} (run : St * list Entry * Settled A) : list Entry :=
  snd (fst run).
Definition settlement {A} (run : St * list Entry * Settled A) : Settled A :=
  snd run.

Definition is_fulfilled {A} (r : Settled A) : bool :=
  match r with Fulfilled _ _ => true | Rejected _ _ => false end.

End Async.

Arguments Fulfilled {Err A} a.
Arguments Rejected {Err A} e.
Arguments ret {Call Reply Err St A} a.
Arguments bind {Call Reply Err St A B} m k.
Arguments await {Call Reply Err St} service c.
Arguments tell {Call Reply Err St} c r.
Arguments attempt {Call Reply Err St A} thrown value.
Arguments get {Call Reply Err St}.
Arguments put {Call Reply Err St} s'.
Arguments try_finally {Call Reply Err St A} body finalizer.
Arguments catch {Call Reply Err St A} m handler.
Arguments for_index {Call Reply Err St} count start body.
Arguments for_each {Call Reply Err St X} xs body.
Arguments final_state {Call Reply Err St A} run.
Arguments emitted {Call Reply Err St A} run.
Arguments settlement {Call Reply Err St A} run.
Arguments is_fulfilled {Err A} r.

End Async.

Import Async.

Declare Scope async_scope.
Delimit Scope async_scope with async.
Notation "x <- m ;; k" := (bind m (fun x => k))
  (at level 61, m at next level, right associativity) : async_scope.
Notation "m ;; k" := (bind m (fun _ => k))
  (at level 61, right associativity) : async_scope.


(** ** The message sender ([sendMessages.ts], lines 12-62) *)

Module SendMessages.

Record Scientist : Type := { name : string; firstName : string }.

Definition listOfScientists : list Scientist :=
  [ {| name := "Einstein"; firstName := "Albert" |};
    {| name := "Heisenberg"; firstName := "Werner" |};
    {| name := "Curie"; firstName := "Marie" |};
    {| name := "Hawking"; firstName := "Steven" |};
    {| name := "Newton"; firstName := "Isaac" |};
    {| name := "Bohr"; firstName := "Niels" |};
    {| name := "Faraday"; firstName := "Michael" |};
    {| name := "Galilei"; firstName := "Galileo" |};
    {| name := "Kepler"; firstName := "Johannes" |};
    {| name := "Kopernikus"; firstName := "Nikolaus" |} ].

Record SendableMessageInfo : Type := { body : string; label : string }.

(** Modelled from the spec: [ServiceBusClient.createFromConnectionString],
    [createQueueClient] and [createSender] belong to [@azure/service-bus],
    which is not among the sources; the spec lists them as operations of the
    external messaging client (create a channel from a connection string,
    create a sender on the channel) and says that every transport and
    authentication error originates in that SDK.  A creation makes no call
    on the service: it either throws, as [sdk_throws] below decides, or
    yields an object that remembers what it was created from. *)
Record ServiceBusClient : Type := { sb_connectionString : string }.
Record QueueClient : Type :=
  { qc_client : ServiceBusClient; qc_queueName : string }.
Record Sender : Type := { sender_queueClient : QueueClient }.

(** Modelled from the spec: the client that
    [ServiceBusClient.createFromConnectionString] yields when it does not
    throw. *)
Definition createFromConnectionString (cs : string) : ServiceBusClient :=
  {| sb_connectionString := cs |}.

(** Modelled from the spec: the queue client that [createQueueClient]
    yields when it does not throw. *)
Definition createQueueClient (c : ServiceBusClient) (q : string) : QueueClient :=
  {| qc_client := c; qc_queueName := q |}.

(** Modelled from the spec: the sender that [createSender] yields when it
    does not throw. *)
Definition createSender (q : QueueClient) : Sender :=
  {| sender_queueClient := q |}.

(** The three creations of lines 36-40, with their arguments. *)
Inductive Creation : Type :=
| creating_client (connectionString : string)
| creating_queueClient (sbClient : ServiceBusClient) (queueName : string)
| creating_sender (queueClient : QueueClient).

(** [process.env]: a variable is a string or is undefined. *)
Definition Env : Type := string -> option string.

(** [value || fallback] on a possibly undefined string: undefined and the
    empty string are falsy. *)
Definition or_default (value : option string) (fallback : string) : string :=
  match value with
  | Some s => if String.eqb s "" then fallback else s
  | None => fallback
  end.

Definition connectionString (env : Env) : string :=
  or_default (env "SERVICE_BUS_CONNECTION_STRING") "<connection string>".

Definition queueName (env : Env) : string :=
  or_default (env "QUEUE_NAME") "<queue name>".

Section Sender.
Variable Err : Type.

(** What the sample does to the outside world. *)
Inductive Call : Type :=
| console_log (text : string)
| console_log_error (text : string) (err : Err)
| send (sender : Sender) (message : SendableMessageInfo)
| queueClient_close (queueClient : QueueClient)
| sbClient_close (sbClient : ServiceBusClient).

Variable service : Service Call unit Err.

(** Modelled from the spec: the error a creation throws, if it throws (a
    malformed connection string, for one); see the creations above. *)
Variable sdk_throws : Creation -> option Err.

Definition message_of (scientist : Scientist) : SendableMessageInfo :=
  {| body := firstName scientist ++ " " ++ name scientist;
     label := "Scientist" |}.

(** The line printed before a message is sent (line 50). *)
Definition announcement (message : SendableMessageInfo) : string :=
  "Sending message: " ++ body message ++ " - " ++ label message.

(** The body of the [for] loop (lines 44-51). *)
Definition send_one (sender : Sender) (scientist : Scientist)
  : M Call unit Err unit unit :=
  (let message := message_of scientist in
   tell (console_log (announcement message)) tt ;;
   await service (send sender message))%async.

(** The [try] statement of [main] (lines 42-57), on the objects created
    before it.  The loop runs [index] from 0 while [index < records.length];
    an index in that range always finds a record. *)
Definition send_and_close (sbClient : ServiceBusClient)
  (queueClient : QueueClient) (sender : Sender) (records : list Scientist)
  : M Call unit Err unit unit :=
  (try_finally
     (for_index (length records) 0
        (fun index =>
           match nth_error records index with
           | Some scientist => send_one sender scientist
           | None => ret tt
           end) ;;
      await service (queueClient_close queueClient))
     (await service (sbClient_close sbClient)))%async.

(** [main] (lines 35-58) with the list it walks as a parameter: the three
    creations, each of which may throw, then the [try] statement. *)
Definition main_on (records : list Scientist) (env : Env)
  : M Call unit Err unit unit :=
  (sbClient <-
     attempt (sdk_throws (creating_client (connectionString env)))
             (createFromConnectionString (connectionString env)) ;;
   queueClient <-
     attempt (sdk_throws (creating_queueClient sbClient (queueName env)))
             (createQueueClient sbClient (queueName env)) ;;
   sender <-
     attempt (sdk_throws (creating_sender queueClient))
             (createSender queueClient) ;;
   send_and_close sbClient queueClient sender records)%async.

(** The error with which [main] leaves before its [try] statement, if a
    creation throws: the first one thrown, in the order of lines 36-40. *)
Definition creation_error (env : Env) : option Err :=
  let sbClient := createFromConnectionString (connectionString env) in
  let queueClient := createQueueClient sbClient (queueName env) in
  match sdk_throws (creating_client (connectionString env)) with
  | Some e => Some e
  | None =>
      match sdk_throws (creating_queueClient sbClient (queueName env)) with
      | Some e => Some e
      | None => sdk_throws (creating_sender queueClient)
      end
  end.

Definition main (env : Env) : M Call unit Err unit unit :=
  main_on listOfScientists env.

(** The top-level driver (lines 60-62). *)
Definition run_sample (env : Env) : M Call unit Err unit unit :=
  catch (main env)
        (fun err => tell (console_log_error "Error occurred: " err) tt).

(** *** Reading a run *)

(** The send calls of a run, oldest first, each with its outcome. *)
Definition sent (out : list (Entry Call unit Err))
  : list (SendableMessageInfo * Settled Err unit) :=
  flat_map (fun e => match fst e with
                     | send _ m => [(m, snd e)]
                     | _ => []
                     end) out.

Definition is_close (c : Call) : bool :=
  match c with
  | queueClient_close _ | sbClient_close _ => true
  | _ => false
  end.

(** The close calls of a run, oldest first. *)
Definition closes (out : list (Entry Call unit Err)) : list Call :=
  filter is_close (map fst out).

Definition all_sends_fulfilled (out : list (Entry Call unit Err)) : bool :=
  forallb (fun p => is_fulfilled (snd p)) (sent out).

(** The lines printed by [console.log(text)] in a run, oldest first. *)
Definition logged (out : list (Entry Call unit Err)) : list string :=
  flat_map (fun e => match fst e with
                     | console_log text => [text]
                     | _ => []
                     end) out.

(** The object a call is made on is the one given: the sender for a send,
    the queue client and the Service Bus client for their close.  Console
    output is made on no object. *)
Definition made_on (sender : Sender) (c : Call) : Prop :=
  match c with
  | console_log _ | console_log_error _ _ => True
  | send s _ => s = sender
  | queueClient_close q => q = sender_queueClient sender
  | sbClient_close sb => sb = qc_client (sender_queueClient sender)
  end.

(** What one iteration leaves in the run when its send is settled by [r]. *)
Definition iteration (sender : Sender) (r : Settled Err unit)
  (scientist : Scientist) : list (Entry Call unit Err) :=
  let message := message_of scientist in
  [ (console_log (announcement message), Fulfilled tt);
    (send sender message, r) ].

End Sender.

Arguments console_log {Err} text.
Arguments console_log_error {Err} text err.
Arguments send {Err} sender message.
Arguments queueClient_close {Err} queueClient.
Arguments sbClient_close {Err} sbClient.
Arguments message_of scientist : simpl never.
Arguments announcement message : simpl never.
Arguments send_one {Err} service sender scientist.
Arguments send_and_close {Err} service sbClient queueClient sender records.
Arguments main_on {Err} service sdk_throws records env.
Arguments creation_error {Err} sdk_throws env.
Arguments main {Err} service sdk_throws env.
Arguments run_sample {Err} service sdk_throws env.
Arguments sent {Err} out.
Arguments is_close {Err} c.
Arguments closes {Err} out.
Arguments all_sends_fulfilled {Err} out.
Arguments logged {Err} out.
Arguments made_on {Err} sender c.
Arguments iteration {Err} sender r scientist.

(** *** Scenarios

    Errors are messages.  Three services: one that fulfils every call, one
    that rejects the send of Heisenberg's message, and one that rejects that
    send and the closing of the connection as well. *)

Definition no_env : Env := fun _ => None.

(** An environment with both variables set. *)
Definition an_env : Env :=
  fun variable =>
    if String.eqb variable "SERVICE_BUS_CONNECTION_STRING"
    then Some "Endpoint=sb://example.servicebus.windows.net/;SharedAccessKeyName=send;SharedAccessKey=c2VjcmV0"
    else if String.eqb variable "QUEUE_NAME" then Some "scientists"
    else None.

(** An SDK that refuses the placeholder connection string and creates
    everything else. *)
Definition refuses_placeholder (c : Creation) : option string :=
  match c with
  | creating_client cs =>
      if String.eqb cs "<connection string>"
      then Some "malformed connection string"
      else None
  | _ => None
  end.

Definition always_fulfilled : Service (Call string) unit string :=
  fun _ _ => Fulfilled tt.

Definition rejects_heisenberg : Service (Call string) unit string :=
  fun _ c =>
    match c with
    | send _ m =>
        if String.eqb (body m) "Werner Heisenberg"
        then Rejected "send failed"
        else Fulfilled tt
    | _ => Fulfilled tt
    end.

Definition rejects_heisenberg_and_close : Service (Call string) unit string :=
  fun _ c =>
    match c with
    | send _ m =>
        if String.eqb (body m) "Werner Heisenberg"
        then Rejected "send failed"
        else Fulfilled tt
    | sbClient_close _ => Rejected "close failed"
    | _ => Fulfilled tt
    end.

End SendMessages.


(** ** The lease client ([LeaseClient], lines 63-327) *)

Module Lease.

Section Lease.
(** Types the class only passes along: abort signals, access conditions,
    JavaScript numbers, the service's responses and errors, the pipeline of
    a client and the options derived from it. *)
Context {AbortSignalLike ModifiedAccessConditions number : Type}.
Context {LeaseOperationResponse Err Pipeline ServiceClientOptions : Type}.

(** [AbortSignal.none]. *)
Variable AbortSignal_none : AbortSignalLike.

(** [pipeline.toServiceClientOptions()]. *)
Variable toServiceClientOptions : Pipeline -> ServiceClientOptions.

(** [LeaseOperationOptions] (lines 137-153): both members are optional. *)
Record LeaseOperationOptions : Type :=
  { abortSignal : option AbortSignalLike;
    modifiedAccessConditions : option ModifiedAccessConditions }.

(** The default [{}] of an omitted [options] argument. *)
Definition options_or_empty (options : option LeaseOperationOptions)
  : LeaseOperationOptions :=
  match options with
  | Some o => o
  | None => {| abortSignal := None; modifiedAccessConditions := None |}
  end.

(** [options.abortSignal || AbortSignal.none]: a signal is an object, so it
    is falsy only when it is missing. *)
Definition aborter_of (options : LeaseOperationOptions) : AbortSignalLike :=
  match abortSignal options with
  | Some signal => signal
  | None => AbortSignal_none
  end.

(** The client handed to the constructor. *)
Inductive ClientClass : Type := ContainerClient | BlobClient.

Record Client : Type :=
  { client_class : ClientClass;
    client_url : string;
    client_pipeline : Pipeline }.

Record StorageClientContext : Type :=
  { context_url : string;
    context_options : ServiceClientOptions }.

(** The generated operation objects: [new Container(context)] and
    [new Blob(context)]. *)
Inductive Operations : Type :=
| Container (context : StorageClientContext)
| Blob (context : StorageClientContext).

(** The option bags the class builds for the generated methods. *)
Record AcquireLeaseOptions : Type :=
  { acquire_abortSignal : AbortSignalLike;
    acquire_duration : number;
    acquire_modifiedAccessConditions : option ModifiedAccessConditions;
    acquire_proposedLeaseId : string }.

Record RequestOptions : Type :=
  { request_abortSignal : AbortSignalLike;
    request_modifiedAccessConditions : option ModifiedAccessConditions }.

Record BreakLeaseOptions : Type :=
  { break_abortSignal : AbortSignalLike;
    break_breakPeriod : number;
    break_modifiedAccessConditions : option ModifiedAccessConditions }.

(** A method of an operations object with its arguments. *)
Inductive Request : Type :=
| op_acquireLease (options : AcquireLeaseOptions)
| op_changeLease (leaseId proposedLeaseId : string) (options : RequestOptions)
| op_releaseLease (leaseId : string) (options : RequestOptions)
| op_renewLease (leaseId : string) (options : RequestOptions)
| op_breakLease (options : BreakLeaseOptions).

(** A forwarded call: the operations object that receives it, and the
    request. *)
Record Call : Type := { receiver : Operations; request : Request }.

(** The remote service behind the operation objects. *)
Variable remote : Service Call LeaseOperationResponse Err.

(** The private fields of a [LeaseClient] (lines 162-164). *)
Record LeaseClient : Type :=
  { _leaseId : string;
    _url : string;
    _containerOrBlobOperation : Operations }.

(** The getters (lines 172-184). *)
Definition leaseId (this : LeaseClient) : string := _leaseId this.
Definition url (this : LeaseClient) : string := _url this.

(** The identifiers the generator hands out, in the order of the draws. *)
Variable uuid_source : nat -> string.

(** Modelled from the spec: [generateUuid] of [@azure/core-http] is not among
    the sources; the spec says that it generates "a new random unique
    identifier".  A call consumes the next draw of [uuid_source]; the count
    of draws made so far is the generator's state. *)
Definition generateUuid (drawn : nat) : string * nat :=
  (uuid_source drawn, S drawn).

(** [leaseId] when it is truthy: undefined and the empty string are not. *)
Definition truthy (leaseId : option string) : option string :=
  match leaseId with
  | Some s => if String.eqb s "" then None else Some s
  | None => None
  end.

(** The constructor (lines 192-209).  It returns the new object and the
    state of the identifier generator. *)
Definition new_LeaseClient (client : Client) (leaseId : option string)
  (drawn : nat) : LeaseClient * nat :=
  let clientContext :=
    {| context_url := client_url client;
       context_options := toServiceClientOptions (client_pipeline client) |} in
  let operation :=
    match client_class client with
    | ContainerClient => Container clientContext
    | BlobClient => Blob clientContext
    end in
  let '(leaseId, drawn) :=
    match truthy leaseId with
    | None => generateUuid drawn
    | Some s => (s, drawn)
    end in
  ({| _leaseId := leaseId;
      _url := client_url client;
      _containerOrBlobOperation := operation |}, drawn).

(** Methods run with the object as their local state. *)
Definition Method (A : Type) : Type :=
  M Call LeaseOperationResponse Err LeaseClient A.

(** [this._leaseId = v]. *)
Definition set_leaseId (v : string) : Method unit :=
  (this <- get ;;
   put {| _leaseId := v;
          _url := _url this;
          _containerOrBlobOperation := _containerOrBlobOperation this |})%async.

(** Lines 224-235. *)
Definition acquireLease (duration : number)
  (options : option LeaseOperationOptions) : Method LeaseOperationResponse :=
  (let options := options_or_empty options in
   let aborter := aborter_of options in
   this <- get ;;
   await remote
     {| receiver := _containerOrBlobOperation this;
        request := op_acquireLease
          {| acquire_abortSignal := aborter;
             acquire_duration := duration;
             acquire_modifiedAccessConditions := modifiedAccessConditions options;
             acquire_proposedLeaseId := _leaseId this |} |})%async.

(** Lines 248-263 (the method is spelled [chanageLease] in the source). *)
Definition chanageLease (proposedLeaseId : string)
  (options : option LeaseOperationOptions) : Method LeaseOperationResponse :=
  (let options := options_or_empty options in
   let aborter := aborter_of options in
   this <- get ;;
   response <- await remote
     {| receiver := _containerOrBlobOperation this;
        request := op_changeLease (_leaseId this) proposedLeaseId
          {| request_abortSignal := aborter;
             request_modifiedAccessConditions := modifiedAccessConditions options |} |} ;;
   set_leaseId proposedLeaseId ;;
   ret response)%async.

(** Lines 276-282. *)
Definition releaseLease (options : option LeaseOperationOptions)
  : Method LeaseOperationResponse :=
  (let options := options_or_empty options in
   let aborter := aborter_of options in
   this <- get ;;
   await remote
     {| receiver := _containerOrBlobOperation this;
        request := op_releaseLease (_leaseId this)
          {| request_abortSignal := aborter;
             request_modifiedAccessConditions := modifiedAccessConditions options |} |})%async.

(** Lines 294-300. *)
Definition renewLease (options : option LeaseOperationOptions)
  : Method LeaseOperationResponse :=
  (let options := options_or_empty options in
   let aborter := aborter_of options in
   this <- get ;;
   await remote
     {| receiver := _containerOrBlobOperation this;
        request := op_renewLease (_leaseId this)
          {| request_abortSignal := aborter;
             request_modifiedAccessConditions := modifiedAccessConditions options |} |})%async.

(** Lines 316-327. *)
Definition breakLease (breakPeriod : number)
  (options : option LeaseOperationOptions) : Method LeaseOperationResponse :=
  (let options := options_or_empty options in
   let aborter := aborter_of options in
   let operationOptions :=
     {| break_abortSignal := aborter;
        break_breakPeriod := breakPeriod;
        break_modifiedAccessConditions := modifiedAccessConditions options |} in
   this <- get ;;
   await remote
     {| receiver := _containerOrBlobOperation this;
        request := op_breakLease operationOptions |})%async.

(** *** Using a lease client *)

(** One method call with its arguments. *)
Inductive Invocation : Type :=
| call_acquireLease (duration : number) (options : option LeaseOperationOptions)
| call_chanageLease (proposedLeaseId : string) (options : option LeaseOperationOptions)
| call_releaseLease (options : option LeaseOperationOptions)
| call_renewLease (options : option LeaseOperationOptions)
| call_breakLease (breakPeriod : number) (options : option LeaseOperationOptions).

Definition invoke (i : Invocation) : Method LeaseOperationResponse :=
  match i with
  | call_acquireLease duration options => acquireLease duration options
  | call_chanageLease proposedLeaseId options => chanageLease proposedLeaseId options
  | call_releaseLease options => releaseLease options
  | call_renewLease options => renewLease options
  | call_breakLease breakPeriod options => breakLease breakPeriod options
  end.

Definition is_chanageLease (i : Invocation) : bool :=
  match i with call_chanageLease _ _ => true | _ => false end.

(** A caller that makes the calls of [todo] one after the other on the same
    object, going on to the next call whether the previous one was fulfilled
    or rejected. *)
Fixpoint session (todo : list Invocation) : Method unit :=
  match todo with
  | [] => ret tt
  | i :: rest =>
      (catch (invoke i ;; ret tt) (fun _ => ret tt) ;; session rest)%async
  end.

(** The lease id a request carries for the lease it is about, if any. *)
Definition forwarded_leaseId (q : Request) : option string :=
  match q with
  | op_acquireLease options => Some (acquire_proposedLeaseId options)
  | op_changeLease leaseId _ _ => Some leaseId
  | op_releaseLease leaseId _ => Some leaseId
  | op_renewLease leaseId _ => Some leaseId
  | op_breakLease _ => None
  end.

(** The signal and the access conditions a request carries. *)
Definition forwarded_abortSignal (q : Request) : AbortSignalLike :=
  match q with
  | op_acquireLease options => acquire_abortSignal options
  | op_changeLease _ _ options => request_abortSignal options
  | op_releaseLease _ options => request_abortSignal options
  | op_renewLease _ options => request_abortSignal options
  | op_breakLease options => break_abortSignal options
  end.

Definition forwarded_modifiedAccessConditions (q : Request)
  : option ModifiedAccessConditions :=
  match q with
  | op_acquireLease options => acquire_modifiedAccessConditions options
  | op_changeLease _ _ options => request_modifiedAccessConditions options
  | op_releaseLease _ options => request_modifiedAccessConditions options
  | op_renewLease _ options => request_modifiedAccessConditions options
  | op_breakLease options => break_modifiedAccessConditions options
  end.

(** The [options] argument of a method call, and the same call with another
    [options] argument. *)
Definition options_of (i : Invocation) : option LeaseOperationOptions :=
  match i with
  | call_acquireLease _ options => options
  | call_chanageLease _ options => options
  | call_releaseLease options => options
  | call_renewLease options => options
  | call_breakLease _ options => options
  end.

Definition with_options (i : Invocation)
  (options : option LeaseOperationOptions) : Invocation :=
  match i with
  | call_acquireLease duration _ => call_acquireLease duration options
  | call_chanageLease proposedLeaseId _ => call_chanageLease proposedLeaseId options
  | call_releaseLease _ => call_releaseLease options
  | call_renewLease _ => call_renewLease options
  | call_breakLease breakPeriod _ => call_breakLease breakPeriod options
  end.

(** The id that the service accepted last in the change-lease calls of
    [out], or [held] when it accepted none. *)
Fixpoint last_accepted (held : string)
  (out : list (Entry Call LeaseOperationResponse Err)) : string :=
  match out with
  | [] => held
  | (c, r) :: rest =>
      last_accepted
        (match request c, r with
         | op_changeLease _ proposedLeaseId _, Fulfilled _ => proposedLeaseId
         | _, _ => held
         end) rest
  end.

(** The id the object holds after the method calls of [done], listed with
    their outcomes, when it held [held] before them: the id passed to the
    last [chanageLease] that was fulfilled, or [held] when none was. *)
Fixpoint held_after (held : string)
  (done : list (Invocation * Settled Err LeaseOperationResponse)) : string :=
  match done with
  | [] => held
  | (i, outcome) :: rest =>
      held_after
        (match i, outcome with
         | call_chanageLease proposedLeaseId _, Fulfilled _ => proposedLeaseId
         | _, _ => held
         end) rest
  end.

End Lease.

Arguments LeaseOperationOptions : clear implicits.
Arguments Client : clear implicits.
Arguments StorageClientContext : clear implicits.
Arguments Operations : clear implicits.
Arguments AcquireLeaseOptions : clear implicits.
Arguments RequestOptions : clear implicits.
Arguments BreakLeaseOptions : clear implicits.
Arguments Request : clear implicits.
Arguments Call : clear implicits.
Arguments LeaseClient : clear implicits.
Arguments Method : clear implicits.
Arguments Invocation : clear implicits.

(** *** Scenario

    An identifier source that never repeats and never yields the empty
    string: the n-th identifier is a "u" followed by n more. *)
Fixpoint tally (n : nat) : string :=
  match n with
  | 0 => "u"
  | S n' => "u" ++ tally n'
  end.

(** A service that cannot be reached: every call is rejected. *)
Definition unreachable : Service (Call nat string nat unit) string string :=
  fun _ _ => Rejected "ENOTFOUND".

Definition a_container_client : Client unit :=
  {| client_class := ContainerClient;
     client_url := "https://account.blob.core.windows.net/container";
     client_pipeline := tt |}.

(** The constructor called once for each client of a list, one call after
    the other, each time without a lease id. *)
Fixpoint new_LeaseClients {Pipeline ServiceClientOptions : Type}
  (toServiceClientOptions : Pipeline -> ServiceClientOptions)
  (uuid_source : nat -> string)
  (clients : list (Client Pipeline)) (drawn : nat)
  : list (LeaseClient ServiceClientOptions) * nat :=
  match clients with
  | [] => ([], drawn)
  | client :: rest =>
      let '(this, drawn) :=
        new_LeaseClient toServiceClientOptions uuid_source client None drawn in
      let '(others, drawn) :=
        new_LeaseClients toServiceClientOptions uuid_source rest drawn in
      (this :: others, drawn)
  end.

End Lease.


(** * Properties of the message sender *)

Section SenderFacts.
Import SendMessages.
Variable Err : Type.
Variable service : Service (Call Err) unit Err.
Variable throws : Creation -> option Err.

Lemma sent_app (out1 out2 : list (Entry (Call Err) unit Err)) :
  sent (out1 ++ out2) = sent out1 ++ sent out2.
Proof. unfold sent. apply flat_map_app. Qed.

Lemma closes_app (out1 out2 : list (Entry (Call Err) unit Err)) :
  closes (out1 ++ out2) = closes out1 ++ closes out2.
Proof. unfold closes. now rewrite map_app, filter_app. Qed.

Lemma sent_iterations (sender : Sender) (r : Settled Err unit)
  (records : list Scientist) :
  sent (flat_map (iteration sender r) records)
  = map (fun scientist => (message_of scientist, r)) records.
Proof.
  induction records as [|scientist rest IH]; [reflexivity|].
  cbn [flat_map map]. rewrite sent_app, IH. reflexivity.
Qed.

Lemma closes_iterations (sender : Sender) (r : Settled Err unit)
  (records : list Scientist) :
  closes (flat_map (iteration sender r) records) = [].
Proof.
  induction records as [|scientist rest IH]; [reflexivity|].
  cbn [flat_map]. rewrite closes_app, IH. reflexivity.
Qed.

(** One turn of the loop, then the rest of it. *)
Lemma send_loop_step (sender : Sender) (scientist : Scientist)
  (rest : list Scientist) (past : list (Entry (Call Err) unit Err)) :
  for_each (scientist :: rest) (send_one service sender) tt past
  = match service
            (past ++ [(console_log (announcement (message_of scientist)),
                       Fulfilled tt)])
            (send sender (message_of scientist)) with
    | Fulfilled _ =>
        let run := for_each rest (send_one service sender) tt
                     (past ++ iteration sender (Fulfilled tt) scientist) in
        (tt, iteration sender (Fulfilled tt) scientist ++ emitted run,
         settlement run)
    | Rejected e => (tt, iteration sender (Rejected e) scientist, Rejected e)
    end.
Proof.
  cbn [for_each]. unfold bind at 1.
  unfold send_one at 1, bind, tell, await. cbn [app].
  destruct (service _ _) as [[]|e]; [|reflexivity].
  unfold iteration, emitted, settlement.
  destruct (for_each rest _ tt _) as [[[] out] r]. reflexivity.
Qed.

(** The loop either goes through every record, or stops at the first record
    whose send is rejected, with that rejection. *)
Lemma send_loop_run (sender : Sender) (records : list Scientist) :
  forall past,
    let run := for_each records (send_one service sender) tt past in
    (settlement run = Fulfilled tt /\
     emitted run = flat_map (iteration sender (Fulfilled tt)) records)
    \/
    (exists k scientist e,
        nth_error records k = Some scientist /\
        settlement run = Rejected e /\
        emitted run
        = flat_map (iteration sender (Fulfilled tt)) (firstn k records)
          ++ iteration sender (Rejected e) scientist).
Proof.
  induction records as [|scientist rest IH]; intros past run.
  - left. split; reflexivity.
  - subst run. rewrite send_loop_step.
    destruct (service _ _) as [[]|e].
    + specialize (IH (past ++ iteration sender (Fulfilled tt) scientist)).
      cbv zeta in *.
      destruct (for_each rest _ tt _) as [[s out] r].
      unfold settlement, emitted in *. cbn [fst snd] in *.
      destruct IH as [[Hr Hout]|(k & sc & e & Hk & Hr & Hout)].
      * left. rewrite Hr, Hout. split; reflexivity.
      * right. exists (S k), sc, e. rewrite Hr, Hout.
        split; [exact Hk|split; [reflexivity|]].
        cbn [firstn flat_map]. now rewrite app_assoc.
    + right. exists 0, scientist, e. repeat split.
Qed.

(** The index loop visits the records of the list, first to last. *)
Lemma index_loop_visits_records (sender : Sender) (records : list Scientist) :
  forall (visited : list Scientist) s past,
    for_index (length records) (length visited)
      (fun index =>
         match nth_error (visited ++ records) index with
         | Some scientist => send_one service sender scientist
         | None => ret tt
         end) s past
    = for_each records (send_one service sender) s past.
Proof.
  induction records as [|scientist rest IH]; intros visited s past.
  - reflexivity.
  - cbn [length for_index for_each]. unfold bind.
    rewrite nth_error_app2, Nat.sub_diag by apply Nat.le_refl.
    cbn [nth_error].
    destruct (send_one service sender scientist s past) as [[s1 out1] [[]|e]];
      [|reflexivity].
    specialize (IH (visited ++ [scientist]) s1 (past ++ out1)).
    rewrite length_app, Nat.add_comm, <- app_assoc in IH. cbn [length app Nat.add] in IH.
    rewrite IH. reflexivity.
Qed.

(** The [try] statement of [main] on the objects that the creations yield
    for [env]. *)
Local Abbreviation try_run records env past :=
  (send_and_close service
     (createFromConnectionString (connectionString env))
     (createQueueClient (createFromConnectionString (connectionString env))
                        (queueName env))
     (createSender
        (createQueueClient (createFromConnectionString (connectionString env))
                           (queueName env)))
     records tt past).

(** The two shapes of a run of the [try] statement of [main]: every send fulfilled, then both
    closes; or a rejected send, then the close of the connection only.  The
    close of the connection decides the settlement when it is rejected. *)
Lemma try_statement_run (records : list Scientist) (env : Env)
  (past : list (Entry (Call Err) unit Err)) :
  let sbClient := createFromConnectionString (connectionString env) in
  let queueClient := createQueueClient sbClient (queueName env) in
  let sender := createSender queueClient in
  let run := try_run records env past in
  (exists rq rs,
      emitted run
      = flat_map (iteration sender (Fulfilled tt)) records
        ++ [(queueClient_close queueClient, rq); (sbClient_close sbClient, rs)]
      /\ settlement run
         = match rs with Fulfilled _ => rq | Rejected e' => Rejected e' end)
  \/
  (exists k scientist e rs,
      nth_error records k = Some scientist
      /\ emitted run
         = (flat_map (iteration sender (Fulfilled tt)) (firstn k records)
            ++ iteration sender (Rejected e) scientist)
           ++ [(sbClient_close sbClient, rs)]
      /\ settlement run
         = match rs with Fulfilled _ => Rejected e | Rejected e' => Rejected e' end).
Proof.
  intros sbClient queueClient sender run. subst run.
  unfold send_and_close, try_finally, bind, await.
  fold sbClient queueClient sender.
  rewrite (index_loop_visits_records sender records []).
  pose proof (send_loop_run sender records past) as Hloop. cbv zeta in Hloop.
  destruct (for_each records (send_one service sender) tt past)
    as [[[] out] r].
  unfold settlement, emitted in *. cbn [fst snd] in *.
  destruct Hloop as [[Hr Hout]|(k & sc & e & Hk & Hr & Hout)]; subst r out.
  - left.
    set (rq := service _ (queueClient_close queueClient)).
    set (rs := service _ (sbClient_close sbClient)).
    exists rq, rs. destruct rs; cbn [fst snd]; rewrite <- app_assoc;
      split; reflexivity.
  - right.
    set (rs := service _ (sbClient_close sbClient)).
    exists k, sc, e, rs. destruct rs; (split; [exact Hk|split; reflexivity]).
Qed.

Lemma firstn_succ_nth_error {X} (xs : list X) (k : nat) (x : X) :
  nth_error xs k = Some x -> firstn (S k) xs = firstn k xs ++ [x].
Proof.
  revert k. induction xs as [|y ys IH]; intros [|k] H; try discriminate.
  - injection H as ->. reflexivity.
  - cbn [firstn app]. f_equal. apply IH. exact H.
Qed.

Lemma sends_all_fulfilled (sender : Sender) (records : list Scientist) :
  forallb (fun p : SendableMessageInfo * Settled Err unit => is_fulfilled (snd p))
          (map (fun scientist => (message_of scientist, Fulfilled tt)) records)
  = true.
Proof. induction records; [reflexivity|exact IHrecords]. Qed.

Lemma rejected_send_not_fulfilled
  (attempts : list (SendableMessageInfo * Settled Err unit))
  (m : SendableMessageInfo) (e : Err) :
  forallb (fun p => is_fulfilled (snd p)) (attempts ++ [(m, Rejected e)])
  = false.
Proof.
  rewrite forallb_app. cbn. now rewrite andb_false_r.
Qed.

(** Once the client, the queue client and the sender are created: in every run of [main], on any list of records, the
    connection close is called exactly once and last, whatever happened
    before; the channel close is called, once and just before it, exactly
    when every send was fulfilled, and is not called when a send was
    rejected. *)
Lemma main_closes_after_creation (records : list Scientist) (env : Env)
  (past : list (Entry (Call Err) unit Err)) :
  let sbClient := createFromConnectionString (connectionString env) in
  let queueClient := createQueueClient sbClient (queueName env) in
  let run := try_run records env past in
  closes (emitted run)
  = (if all_sends_fulfilled (emitted run)
     then [queueClient_close queueClient; sbClient_close sbClient]
     else [sbClient_close sbClient])
  /\ exists before rs, emitted run = before ++ [(sbClient_close sbClient, rs)].
Proof.
  intros sbClient queueClient run.
  destruct (try_statement_run records env past)
    as [(rq & rs & Hout & _)|(k & sc & e & rs & _ & Hout & _)];
    fold run sbClient queueClient in Hout; rewrite Hout;
    unfold all_sends_fulfilled.
  - split.
    + rewrite closes_app, closes_iterations, sent_app, sent_iterations.
      cbn [sent flat_map fst snd app]. rewrite app_nil_r.
      now rewrite sends_all_fulfilled.
    + exists (flat_map (iteration (createSender queueClient) (Fulfilled tt)) records
              ++ [(queueClient_close queueClient, rq)]), rs.
      now rewrite <- app_assoc.
  - split.
    + rewrite !closes_app, closes_iterations, !sent_app, sent_iterations.
      cbn [sent iteration flat_map fst snd app]. rewrite app_nil_r.
      now rewrite rejected_send_not_fulfilled.
    + eexists _, rs. reflexivity.
Qed.

(** Once the client, the queue client and the sender are created: on a list of N records the sends are made one per record,
    in list order, each after the previous one was fulfilled: all N when
    every send is fulfilled; and when send k is rejected no later send is
    made and [main] is rejected, with the error of that send unless the
    close of the connection is rejected too, in which case with the error of
    the close. *)
Lemma main_sends_in_order_until_rejection_after_creation (records : list Scientist)
  (env : Env) (past : list (Entry (Call Err) unit Err)) :
  let sbClient := createFromConnectionString (connectionString env) in
  let run := try_run records env past in
  let attempts := sent (emitted run) in
  map fst attempts = firstn (length attempts) (map message_of records)
  /\ (all_sends_fulfilled (emitted run) = true ->
      length attempts = length records)
  /\ (forall k m e,
        nth_error attempts k = Some (m, Rejected e) ->
        length attempts = S k
        /\ exists before rs,
             emitted run = before ++ [(sbClient_close sbClient, rs)]
             /\ settlement run
                = match rs with
                  | Fulfilled _ => Rejected e
                  | Rejected e' => Rejected e'
                  end).
Proof.
  intros sbClient run attempts.
  destruct (try_statement_run records env past)
    as [(rq & rs & Hout & Hr)|(k & sc & e & rs & Hk & Hout & Hr)];
    fold run sbClient in Hout, Hr.
  - assert (Hsent : attempts
                    = map (fun scientist => (message_of scientist, Fulfilled tt))
                          records).
    { unfold attempts. rewrite Hout, sent_app, sent_iterations.
      cbn [sent flat_map fst snd app]. now rewrite app_nil_r. }
    rewrite Hsent, length_map. split; [|split].
    + rewrite map_map. cbn [fst].
      rewrite <- (length_map message_of), firstn_all. reflexivity.
    + reflexivity.
    + intros k m e Hnth. exfalso.
      rewrite nth_error_map in Hnth.
      destruct (nth_error records k); discriminate.
  - assert (Hsent : attempts
                    = map (fun scientist => (message_of scientist, Fulfilled tt))
                          (firstn k records)
                      ++ [(message_of sc, Rejected e)]).
    { unfold attempts. rewrite Hout, !sent_app, sent_iterations.
      cbn [sent iteration flat_map fst snd app]. now rewrite app_nil_r. }
    assert (Hlt : k < length records)
      by (apply nth_error_Some; rewrite Hk; discriminate).
    assert (Hlen : length attempts = S k).
    { rewrite Hsent, length_app, length_map, length_firstn. cbn. lia. }
    split; [|split].
    + rewrite Hlen, Hsent, map_app, map_map. cbn [fst map].
      rewrite <- firstn_map.
      apply eq_sym, firstn_succ_nth_error.
      rewrite nth_error_map, Hk. reflexivity.
    + unfold all_sends_fulfilled. fold attempts.
      rewrite Hsent, rejected_send_not_fulfilled. discriminate.
    + intros k' m e' Hnth.
      assert (Hk' : k' = k).
      { destruct (Nat.lt_ge_cases k' k) as [Hlt'|Hge].
        - rewrite Hsent, nth_error_app1 in Hnth
            by (rewrite length_map, length_firstn; lia).
          rewrite nth_error_map in Hnth.
          destruct (nth_error (firstn k records) k'); discriminate.
        - assert (k' < S k)
            by (rewrite <- Hlen; apply nth_error_Some;
                rewrite Hnth; discriminate).
          lia. }
      subst k'. split; [exact Hlen|].
      rewrite Hsent in Hnth.
      rewrite nth_error_app2 in Hnth
        by (rewrite length_map, length_firstn; lia).
      rewrite length_map, length_firstn in Hnth.
      replace (k - Nat.min k (length records)) with 0 in Hnth by lia.
      injection Hnth as _ ->.
      eexists _, rs. split; [exact Hout|exact Hr].
Qed.

(** With a service that fulfils every call the loop goes through the whole
    list. *)
Lemma send_loop_all_fulfilled (sender : Sender) :
  (forall history c, service history c = Fulfilled tt) ->
  forall records past,
    for_each records (send_one service sender) tt past
    = (tt, flat_map (iteration sender (Fulfilled tt)) records, Fulfilled tt).
Proof.
  intros Hok. induction records as [|scientist rest IH]; intros past.
  - reflexivity.
  - rewrite send_loop_step, Hok, IH. reflexivity.
Qed.

(** Once the client, the queue client and the sender are created: when every call is fulfilled, [main] sends its list of ten
    scientists: ten sends, with the bodies below and the label "Scientist",
    in that order, followed by the channel close and then the connection
    close. *)
Lemma main_sends_the_ten_scientists_after_creation (env : Env)
  (past : list (Entry (Call Err) unit Err)) :
  (forall history c, service history c = Fulfilled tt) ->
  let sbClient := createFromConnectionString (connectionString env) in
  let queueClient := createQueueClient sbClient (queueName env) in
  let run := try_run listOfScientists env past in
  sent (emitted run)
  = map (fun text => ({| body := text; label := "Scientist" |}, Fulfilled tt))
        [ "Albert Einstein"; "Werner Heisenberg"; "Marie Curie";
          "Steven Hawking"; "Isaac Newton"; "Niels Bohr"; "Michael Faraday";
          "Galileo Galilei"; "Johannes Kepler"; "Nikolaus Kopernikus" ]
  /\ (exists sending,
         closes sending = []
         /\ emitted run
            = sending ++ [ (queueClient_close queueClient, Fulfilled tt);
                           (sbClient_close sbClient, Fulfilled tt) ])
  /\ settlement run = Fulfilled tt.
Proof.
  intros Hok sbClient queueClient run. subst run.
  unfold send_and_close, try_finally, bind, await.
  fold sbClient queueClient.
  rewrite (index_loop_visits_records (createSender queueClient)
             listOfScientists []).
  rewrite (send_loop_all_fulfilled (createSender queueClient) Hok), !Hok.
  unfold emitted, settlement. cbn [fst snd].
  split; [|split; [|reflexivity]].
  - rewrite <- app_assoc, sent_app, sent_iterations. reflexivity.
  - exists (flat_map (iteration (createSender queueClient) (Fulfilled tt))
                     listOfScientists).
    split; [apply closes_iterations|now rewrite <- app_assoc].
Qed.

(** The calls of the turns of the loop for [records], without their
    outcomes. *)
Lemma calls_of_iterations (sender : Sender) (r : Settled Err unit)
  (records : list Scientist) :
  map fst (flat_map (iteration sender r) records)
  = flat_map (fun m => [console_log (announcement m); send sender m])
             (map message_of records).
Proof.
  induction records as [|scientist rest IH]; [reflexivity|].
  change (flat_map (iteration sender r) (scientist :: rest))
    with (iteration sender r scientist ++ flat_map (iteration sender r) rest).
  rewrite map_app.
  exact (f_equal (app (map fst (iteration sender r scientist))) IH).
Qed.

Lemma logged_app (out1 out2 : list (Entry (Call Err) unit Err)) :
  logged (out1 ++ out2) = logged out1 ++ logged out2.
Proof. unfold logged. apply flat_map_app. Qed.

Lemma logged_iterations (sender : Sender) (r : Settled Err unit)
  (records : list Scientist) :
  logged (flat_map (iteration sender r) records)
  = map (fun scientist => announcement (message_of scientist)) records.
Proof.
  induction records as [|scientist rest IH]; [reflexivity|].
  cbn [flat_map map]. rewrite logged_app, IH. reflexivity.
Qed.

Lemma iterations_fulfilled (sender : Sender) (records : list Scientist) :
  forallb (fun e : Entry (Call Err) unit Err => is_fulfilled (snd e))
          (flat_map (iteration sender (Fulfilled tt)) records) = true.
Proof.
  induction records as [|scientist rest IH]; [reflexivity|].
  cbn [flat_map]. rewrite forallb_app, IH. reflexivity.
Qed.

Lemma iterations_made_on (sender : Sender) (r : Settled Err unit)
  (records : list Scientist) :
  Forall (fun e : Entry (Call Err) unit Err => made_on sender (fst e))
         (flat_map (iteration sender r) records).
Proof.
  induction records as [|scientist rest IH]; [constructor|].
  cbn [flat_map]. apply Forall_app. split; [|exact IH].
  repeat constructor.
Qed.

(** X1: the connection string and the queue name are never empty: each is
    the value of its environment variable when that is set to a non-empty
    string, and the placeholder otherwise, so that a variable set to the
    empty string counts as not set. *)
Theorem configuration_falls_back_on_placeholders (env : Env) :
  connectionString env <> ""
  /\ queueName env <> ""
  /\ (env "SERVICE_BUS_CONNECTION_STRING" = Some (connectionString env)
      \/ (connectionString env = "<connection string>"
          /\ (env "SERVICE_BUS_CONNECTION_STRING" = None
              \/ env "SERVICE_BUS_CONNECTION_STRING" = Some "")))
  /\ (env "QUEUE_NAME" = Some (queueName env)
      \/ (queueName env = "<queue name>"
          /\ (env "QUEUE_NAME" = None \/ env "QUEUE_NAME" = Some ""))).
Proof.
  unfold connectionString, queueName, or_default.
  destruct (env "SERVICE_BUS_CONNECTION_STRING") as [cs|];
    destruct (env "QUEUE_NAME") as [q|];
    repeat match goal with
           | |- context [String.eqb ?v ""] =>
               destruct (String.eqb_spec v ""); subst
           end;
    repeat split; try discriminate; try assumption; auto.
Qed.

(** Once the client, the queue client and the sender are created: in a run of [main] every message is sent through the one sender
    created on the queue client for the configured queue, which was created
    on the client for the configured connection string; the two closes are
    made on that queue client and on that client. *)
Lemma main_calls_are_made_on_configured_objects_after_creation (records : list Scientist)
  (env : Env) (past : list (Entry (Call Err) unit Err)) :
  let sender :=
    {| sender_queueClient :=
         {| qc_client := {| sb_connectionString := connectionString env |};
            qc_queueName := queueName env |} |} in
  Forall (fun e => made_on sender (fst e))
         (emitted (try_run records env past)).
Proof.
  intros sender.
  destruct (try_statement_run records env past)
    as [(rq & rs & Hout & _)|(k & sc & e & rs & _ & Hout & _)];
    rewrite Hout; repeat (apply Forall_app; split);
    try apply iterations_made_on; repeat constructor.
Qed.

(** Once the client, the queue client and the sender are created: the calls of a run of [main], in order, are: for each message it
    tried to send, the console line announcing it and then its send; after
    them the closes, and nothing else.  The message whose send is rejected
    has been announced like the others. *)
Lemma main_announces_then_sends_then_closes_after_creation (records : list Scientist)
  (env : Env) (past : list (Entry (Call Err) unit Err)) :
  let sender :=
    createSender
      (createQueueClient (createFromConnectionString (connectionString env))
                         (queueName env)) in
  let run := try_run records env past in
  map fst (emitted run)
  = flat_map (fun m => [console_log (announcement m); send sender m])
             (map fst (sent (emitted run)))
    ++ closes (emitted run)
  /\ logged (emitted run) = map announcement (map fst (sent (emitted run))).
Proof.
  intros sender run.
  destruct (try_statement_run records env past)
    as [(rq & rs & Hout & _)|(k & sc & e & rs & _ & Hout & _)];
    fold run in Hout; rewrite Hout; fold sender.
  - rewrite map_app, sent_app, closes_app, logged_app, sent_iterations,
      closes_iterations, logged_iterations, calls_of_iterations.
    cbn [sent closes logged flat_map map filter is_close fst snd app].
    rewrite !app_nil_r, !map_map. split; reflexivity.
  - rewrite !map_app, !sent_app, !closes_app, !logged_app, sent_iterations,
      closes_iterations, logged_iterations, calls_of_iterations.
    cbn [sent closes logged iteration flat_map map filter is_close fst snd app].
    rewrite !app_nil_r, !map_app, flat_map_app, !map_map.
    split; reflexivity.
Qed.

(** Once the client, the queue client and the sender are created: [main] is fulfilled exactly when every call it made was fulfilled,
    and when it is rejected its error is the error of the last call that was
    rejected: no error is made up, and an earlier error is lost only to a
    later one. *)
Lemma main_reports_last_rejection_after_creation (records : list Scientist) (env : Env)
  (past : list (Entry (Call Err) unit Err)) :
  let run := try_run records env past in
  match settlement run with
  | Fulfilled _ =>
      forallb (fun e => is_fulfilled (snd e)) (emitted run) = true
  | Rejected err =>
      exists before call after,
        emitted run = before ++ (call, Rejected err) :: after
        /\ forallb (fun e => is_fulfilled (snd e)) after = true
  end.
Proof.
  intros run.
  destruct (try_statement_run records env past)
    as [(rq & rs & Hout & Hr)|(k & sc & e & rs & _ & Hout & Hr)];
    fold run in Hout, Hr; rewrite Hr, Hout.
  - destruct rs as [[]|e'].
    + destruct rq as [[]|e].
      * rewrite forallb_app, iterations_fulfilled. reflexivity.
      * eexists _, _, [_]. split; reflexivity.
    + eexists (_ ++ [_]), _, [].
      split; [exact (app_assoc _ [_] [_])|reflexivity].
  - destruct rs as [[]|e'].
    + eexists (_ ++ [_]), _, [_].
      split;
        [exact (eq_trans (eq_sym (app_assoc _ [_; _] [_]))
                         (app_assoc _ [_] [_; _]))
        |reflexivity].
    + eexists _, _, []. split; reflexivity.
Qed.

(** [main] leaves with the error of the first creation that throws, having
    called nothing; otherwise it is its [try] statement on the objects
    created. *)
Lemma main_on_cases (records : list Scientist) (env : Env)
  (past : list (Entry (Call Err) unit Err)) :
  main_on service throws records env tt past
  = match creation_error throws env with
    | Some e => (tt, [], Rejected e)
    | None => try_run records env past
    end.
Proof.
  unfold main_on, creation_error, bind, attempt.
  destruct (throws (creating_client _)); [reflexivity|].
  destruct (throws (creating_queueClient _ _)); [reflexivity|].
  destruct (throws (creating_sender _)); [reflexivity|].
  cbn [app]. rewrite !app_nil_r.
  destruct (send_and_close _ _ _ _ _ tt past) as [[[] out] r]. reflexivity.
Qed.

(** C2 (amended): in a run of [main], on any list of records, in which the
    client, the queue client and the sender are created, the connection
    close is called exactly once and last, whatever happened before; the
    channel close is called, once and just before it, exactly when every
    send was fulfilled, and is not called when a send was rejected.  When a
    creation throws, [main] is rejected with that error and calls nothing,
    no close either. *)
Theorem main_closes (records : list Scientist) (env : Env)
  (past : list (Entry (Call Err) unit Err)) :
  let sbClient := createFromConnectionString (connectionString env) in
  let queueClient := createQueueClient sbClient (queueName env) in
  let run := main_on service throws records env tt past in
  match creation_error throws env with
  | None =>
      closes (emitted run)
      = (if all_sends_fulfilled (emitted run)
         then [queueClient_close queueClient; sbClient_close sbClient]
         else [sbClient_close sbClient])
      /\ exists before rs,
          emitted run = before ++ [(sbClient_close sbClient, rs)]
  | Some e => emitted run = [] /\ settlement run = Rejected e
  end.
Proof.
  intros sbClient queueClient run. subst run. rewrite main_on_cases.
  destruct (creation_error throws env) as [e|].
  - split; reflexivity.
  - apply main_closes_after_creation.
Qed.

(** C3 (amended): in a run of [main] on a list of N records in which the
    client, the queue client and the sender are created, the sends are made
    one per record, in list order, each after the previous one was
    fulfilled: all N when every send is fulfilled; and when send k is
    rejected no later send is made and [main] is rejected, with the error of
    that send unless the close of the connection is rejected too, in which
    case with the error of the close.  When a creation throws, no send is
    made and [main] is rejected with that error. *)
Theorem main_sends_in_order_until_rejection (records : list Scientist)
  (env : Env) (past : list (Entry (Call Err) unit Err)) :
  let sbClient := createFromConnectionString (connectionString env) in
  let run := main_on service throws records env tt past in
  let attempts := sent (emitted run) in
  match creation_error throws env with
  | None =>
      map fst attempts = firstn (length attempts) (map message_of records)
      /\ (all_sends_fulfilled (emitted run) = true ->
          length attempts = length records)
      /\ (forall k m e,
            nth_error attempts k = Some (m, Rejected e) ->
            length attempts = S k
            /\ exists before rs,
                 emitted run = before ++ [(sbClient_close sbClient, rs)]
                 /\ settlement run
                    = match rs with
                      | Fulfilled _ => Rejected e
                      | Rejected e' => Rejected e'
                      end)
  | Some e => attempts = [] /\ settlement run = Rejected e
  end.
Proof.
  intros sbClient run attempts. subst attempts run. rewrite main_on_cases.
  destruct (creation_error throws env) as [e|].
  - split; reflexivity.
  - apply main_sends_in_order_until_rejection_after_creation.
Qed.

(** C8 (amended): when the client, the queue client and the sender are
    created and every call is fulfilled, [main] sends its list of ten
    scientists: ten sends, with the bodies below and the label "Scientist",
    in that order, followed by the channel close and then the connection
    close. *)
Theorem main_sends_the_ten_scientists (env : Env)
  (past : list (Entry (Call Err) unit Err)) :
  creation_error throws env = None ->
  (forall history c, service history c = Fulfilled tt) ->
  let sbClient := createFromConnectionString (connectionString env) in
  let queueClient := createQueueClient sbClient (queueName env) in
  let run := main service throws env tt past in
  sent (emitted run)
  = map (fun text => ({| body := text; label := "Scientist" |}, Fulfilled tt))
        [ "Albert Einstein"; "Werner Heisenberg"; "Marie Curie";
          "Steven Hawking"; "Isaac Newton"; "Niels Bohr"; "Michael Faraday";
          "Galileo Galilei"; "Johannes Kepler"; "Nikolaus Kopernikus" ]
  /\ (exists sending,
         closes sending = []
         /\ emitted run
            = sending ++ [ (queueClient_close queueClient, Fulfilled tt);
                           (sbClient_close sbClient, Fulfilled tt) ])
  /\ settlement run = Fulfilled tt.
Proof.
  intros Hcreated Hok sbClient queueClient run. subst run.
  unfold main. rewrite main_on_cases, Hcreated.
  apply (main_sends_the_ten_scientists_after_creation env past Hok).
Qed.

(** X2: in a run of [main] every message is sent through the one sender
    created on the queue client for the configured queue, which was created
    on the client for the configured connection string; the two closes are
    made on that queue client and on that client. *)
Theorem main_calls_are_made_on_configured_objects (records : list Scientist)
  (env : Env) (past : list (Entry (Call Err) unit Err)) :
  let sender :=
    {| sender_queueClient :=
         {| qc_client := {| sb_connectionString := connectionString env |};
            qc_queueName := queueName env |} |} in
  Forall (fun e => made_on sender (fst e))
         (emitted (main_on service throws records env tt past)).
Proof.
  intros sender. rewrite main_on_cases.
  destruct (creation_error throws env) as [e|].
  - constructor.
  - apply main_calls_are_made_on_configured_objects_after_creation.
Qed.

(** X3: the calls of a run of [main], in order, are: for each message it
    tried to send, the console line announcing it and then its send; after
    them the closes, and nothing else.  The message whose send is rejected
    has been announced like the others. *)
Theorem main_announces_then_sends_then_closes (records : list Scientist)
  (env : Env) (past : list (Entry (Call Err) unit Err)) :
  let sender :=
    createSender
      (createQueueClient (createFromConnectionString (connectionString env))
                         (queueName env)) in
  let run := main_on service throws records env tt past in
  map fst (emitted run)
  = flat_map (fun m => [console_log (announcement m); send sender m])
             (map fst (sent (emitted run)))
    ++ closes (emitted run)
  /\ logged (emitted run) = map announcement (map fst (sent (emitted run))).
Proof.
  intros sender run. subst run. rewrite main_on_cases.
  destruct (creation_error throws env) as [e|].
  - split; reflexivity.
  - apply main_announces_then_sends_then_closes_after_creation.
Qed.

(** X4: [main] is fulfilled exactly when the client, the queue client and
    the sender were created and every call it made was fulfilled.  When it
    is rejected, its error is the error thrown by a creation, and then it
    called nothing; or, the objects being created, the error of the last
    call that was rejected: no error is made up, and an earlier error is
    lost only to a later one. *)
Theorem main_reports_last_rejection (records : list Scientist) (env : Env)
  (past : list (Entry (Call Err) unit Err)) :
  let run := main_on service throws records env tt past in
  match settlement run with
  | Fulfilled _ =>
      creation_error throws env = None
      /\ forallb (fun e => is_fulfilled (snd e)) (emitted run) = true
  | Rejected err =>
      (creation_error throws env = Some err /\ emitted run = [])
      \/ (creation_error throws env = None
          /\ exists before call after,
               emitted run = before ++ (call, Rejected err) :: after
               /\ forallb (fun e => is_fulfilled (snd e)) after = true)
  end.
Proof.
  intros run. subst run. rewrite main_on_cases.
  destruct (creation_error throws env) as [e|].
  - left. split; reflexivity.
  - pose proof (main_reports_last_rejection_after_creation records env past)
      as Hrun. cbv zeta in Hrun.
    destruct (settlement _); [split|right; split]; auto.
Qed.

(** X5: the driver is never rejected: it prints the error of a rejected
    [main], once and after everything [main] did, and prints nothing more
    when [main] is fulfilled. *)
Lemma run_sample_logs_rejection (env : Env)
  (past : list (Entry (Call Err) unit Err)) :
  settlement (run_sample service throws env tt past) = Fulfilled tt
  /\ emitted (run_sample service throws env tt past)
     = emitted (main service throws env tt past)
       ++ match settlement (main service throws env tt past) with
          | Fulfilled _ => []
          | Rejected err =>
              [(console_log_error "Error occurred: " err, Fulfilled tt)]
          end.
Proof.
  unfold run_sample, catch, tell, settlement, emitted.
  destruct (main service throws env tt past) as [[[] out] [[]|err]]; cbn [fst snd];
    rewrite ?app_nil_r; split; reflexivity.
Qed.

End SenderFacts.

(** C2, as stated, fails: when the send of the second message is rejected the
    channel is never closed; only the connection is. *)
Lemma main_skips_channel_close_after_rejected_send :
  let sbClient :=
    SendMessages.createFromConnectionString
      (SendMessages.connectionString SendMessages.an_env) in
  let queueClient := SendMessages.createQueueClient sbClient "scientists" in
  let run := SendMessages.main SendMessages.rejects_heisenberg
               SendMessages.refuses_placeholder SendMessages.an_env tt [] in
  SendMessages.closes (emitted run) = [SendMessages.sbClient_close sbClient]
  /\ SendMessages.closes (emitted run)
     <> [SendMessages.queueClient_close queueClient;
         SendMessages.sbClient_close sbClient].
Proof. split; [reflexivity|discriminate]. Qed.

(** C3, as stated, fails: when the send of the second message is rejected
    and the close of the connection is rejected too, the caller of [main]
    gets the error of the close, not the error of the send. *)
Lemma main_reports_close_error_instead_of_send_error :
  let run := SendMessages.main SendMessages.rejects_heisenberg_and_close
               SendMessages.refuses_placeholder SendMessages.an_env tt [] in
  nth_error (SendMessages.sent (emitted run)) 1
  = Some ({| SendMessages.body := "Werner Heisenberg";
             SendMessages.label := "Scientist" |}, Rejected "send failed")
  /\ settlement run = Rejected "close failed"
  /\ settlement run <> Rejected "send failed".
Proof. split; [reflexivity|split; [reflexivity|discriminate]]. Qed.

(** C8, as stated, fails: the list has ten records, and ten messages are
    sent, not three. *)
Lemma main_sends_ten_messages_not_three :
  let run := SendMessages.main SendMessages.always_fulfilled
               SendMessages.refuses_placeholder SendMessages.an_env tt [] in
  length (SendMessages.sent (emitted run)) = 10
  /\ map (fun p => SendMessages.body (fst p)) (SendMessages.sent (emitted run))
     <> ["Albert Einstein"; "Werner Heisenberg"; "Marie Curie"].
Proof. split; [reflexivity|discriminate]. Qed.

(** With the placeholders for a configuration the client is not created:
    [main] is rejected and has called nothing. *)
Lemma main_leaves_when_the_client_is_not_created :
  let run := SendMessages.main SendMessages.always_fulfilled
               SendMessages.refuses_placeholder SendMessages.no_env tt [] in
  emitted run = [] /\ settlement run = Rejected "malformed connection string".
Proof. split; reflexivity. Qed.

Lemma main_sends_in_order_until_rejection_witness :
  let run := SendMessages.main SendMessages.rejects_heisenberg
               SendMessages.refuses_placeholder SendMessages.an_env tt [] in
  SendMessages.creation_error SendMessages.refuses_placeholder
    SendMessages.an_env = None
  /\ nth_error (SendMessages.sent (emitted run)) 1
     = Some ({| SendMessages.body := "Werner Heisenberg";
                SendMessages.label := "Scientist" |}, Rejected "send failed")
  /\ length (SendMessages.sent (emitted run)) = 2.
Proof.
  split; [reflexivity|split; [reflexivity|]].
  pose proof (main_sends_in_order_until_rejection string
                SendMessages.rejects_heisenberg
                SendMessages.refuses_placeholder
                SendMessages.listOfScientists
                SendMessages.an_env []) as Hrun.
  cbv zeta in Hrun.
  change (SendMessages.creation_error SendMessages.refuses_placeholder
            SendMessages.an_env) with (@None string) in Hrun.
  apply (proj2 (proj2 Hrun) 1 _ "send failed" eq_refl).
Defined.

Lemma main_sends_the_ten_scientists_witness :
  SendMessages.creation_error SendMessages.refuses_placeholder
    SendMessages.an_env = None
  /\ (forall history c, SendMessages.always_fulfilled history c = Fulfilled tt)
  /\ settlement (SendMessages.main SendMessages.always_fulfilled
                   SendMessages.refuses_placeholder
                   SendMessages.an_env tt []) = Fulfilled tt.
Proof.
  split; [reflexivity|split; [reflexivity|]].
  destruct (main_sends_the_ten_scientists string SendMessages.always_fulfilled
              SendMessages.refuses_placeholder SendMessages.an_env []
              eq_refl (fun _ _ => eq_refl)) as (_ & _ & Hr).
  exact Hr.
Defined.


(** * Properties of the lease client *)

Section LeaseFacts.
Import Lease.
Variables AbortSignalLike ModifiedAccessConditions number : Type.
Variables LeaseOperationResponse Err Pipeline ServiceClientOptions : Type.
Variable AbortSignal_none : AbortSignalLike.
Variable toServiceClientOptions : Pipeline -> ServiceClientOptions.
Variable remote :
  Service (Call AbortSignalLike ModifiedAccessConditions number ServiceClientOptions)
          LeaseOperationResponse Err.
Variable uuid_source : nat -> string.

Local Abbreviation Options :=
  (LeaseOperationOptions AbortSignalLike ModifiedAccessConditions).
Local Abbreviation Handle := (LeaseClient ServiceClientOptions).
Local Abbreviation History :=
  (list (Entry (Call AbortSignalLike ModifiedAccessConditions number
                     ServiceClientOptions)
               LeaseOperationResponse Err)).
Local Abbreviation new_LeaseClient :=
  (Lease.new_LeaseClient toServiceClientOptions uuid_source).
Local Abbreviation acquireLease := (Lease.acquireLease AbortSignal_none remote).
Local Abbreviation chanageLease := (Lease.chanageLease AbortSignal_none remote).
Local Abbreviation releaseLease := (Lease.releaseLease AbortSignal_none remote).
Local Abbreviation renewLease := (Lease.renewLease AbortSignal_none remote).
Local Abbreviation breakLease := (Lease.breakLease AbortSignal_none remote).
Local Abbreviation invoke := (Lease.invoke AbortSignal_none remote).
Local Abbreviation session := (Lease.session AbortSignal_none remote).

(** The request that [chanageLease] forwards. *)
Local Abbreviation change_call this proposedLeaseId options :=
  {| receiver := _containerOrBlobOperation this;
     request := op_changeLease (_leaseId this) proposedLeaseId
       {| request_abortSignal := aborter_of AbortSignal_none (options_or_empty options);
          request_modifiedAccessConditions :=
            modifiedAccessConditions (options_or_empty options) |} |}.

(** Runs a method that only reads the object and awaits one call. *)
Ltac run_forwarding_method :=
  unfold Lease.acquireLease, Lease.releaseLease, Lease.renewLease,
    Lease.breakLease, bind, get, await;
  cbn [app]; rewrite ?app_nil_r; reflexivity.

Lemma acquireLease_run (duration : number) (options : option Options)
  (this : Handle) (past : History) :
  let call :=
    {| receiver := _containerOrBlobOperation this;
       request := op_acquireLease
         {| acquire_abortSignal := aborter_of AbortSignal_none (options_or_empty options);
            acquire_duration := duration;
            acquire_modifiedAccessConditions :=
              modifiedAccessConditions (options_or_empty options);
            acquire_proposedLeaseId := _leaseId this |} |} in
  acquireLease duration options this past
  = (this, [(call, remote past call)], remote past call).
Proof. run_forwarding_method. Qed.

Lemma releaseLease_run (options : option Options) (this : Handle)
  (past : History) :
  let call :=
    {| receiver := _containerOrBlobOperation this;
       request := op_releaseLease (_leaseId this)
         {| request_abortSignal := aborter_of AbortSignal_none (options_or_empty options);
            request_modifiedAccessConditions :=
              modifiedAccessConditions (options_or_empty options) |} |} in
  releaseLease options this past
  = (this, [(call, remote past call)], remote past call).
Proof. run_forwarding_method. Qed.

Lemma renewLease_run (options : option Options) (this : Handle)
  (past : History) :
  let call :=
    {| receiver := _containerOrBlobOperation this;
       request := op_renewLease (_leaseId this)
         {| request_abortSignal := aborter_of AbortSignal_none (options_or_empty options);
            request_modifiedAccessConditions :=
              modifiedAccessConditions (options_or_empty options) |} |} in
  renewLease options this past
  = (this, [(call, remote past call)], remote past call).
Proof. run_forwarding_method. Qed.

Lemma breakLease_run (breakPeriod : number) (options : option Options)
  (this : Handle) (past : History) :
  let call :=
    {| receiver := _containerOrBlobOperation this;
       request := op_breakLease
         {| break_abortSignal := aborter_of AbortSignal_none (options_or_empty options);
            break_breakPeriod := breakPeriod;
            break_modifiedAccessConditions :=
              modifiedAccessConditions (options_or_empty options) |} |} in
  breakLease breakPeriod options this past
  = (this, [(call, remote past call)], remote past call).
Proof. run_forwarding_method. Qed.

(** [chanageLease] makes one call; the object is updated after it, and only
    when it was fulfilled. *)
Lemma chanageLease_run (proposedLeaseId : string) (options : option Options)
  (this : Handle) (past : History) :
  chanageLease proposedLeaseId options this past
  = (if is_fulfilled (remote past (change_call this proposedLeaseId options))
     then {| _leaseId := proposedLeaseId;
             _url := _url this;
             _containerOrBlobOperation := _containerOrBlobOperation this |}
     else this,
     [(change_call this proposedLeaseId options,
       remote past (change_call this proposedLeaseId options))],
     remote past (change_call this proposedLeaseId options)).
Proof.
  unfold Lease.chanageLease, set_leaseId, bind, await, get, put, ret.
  cbn [app]. rewrite !app_nil_r. destruct (remote past _); reflexivity.
Qed.

(** Every method makes exactly one call, on the operations object of the
    handle; it never changes that object nor the url, and only
    [chanageLease] can change the lease id. *)
Lemma invoke_run (i : Invocation AbortSignalLike ModifiedAccessConditions number)
  (this : Handle) (past : History) :
  exists q,
    let call := {| receiver := _containerOrBlobOperation this; request := q |} in
    emitted (invoke i this past) = [(call, remote past call)]
    /\ settlement (invoke i this past) = remote past call
    /\ _url (final_state (invoke i this past)) = _url this
    /\ _containerOrBlobOperation (final_state (invoke i this past))
       = _containerOrBlobOperation this
    /\ _leaseId (final_state (invoke i this past))
       = last_accepted (_leaseId this) [(call, remote past call)]
    /\ (is_chanageLease i = false -> final_state (invoke i this past) = this).
Proof.
  destruct i as [d o|id o|o|o|p o]; cbn [Lease.invoke];
    rewrite ?acquireLease_run, ?chanageLease_run, ?releaseLease_run,
      ?renewLease_run, ?breakLease_run;
    eexists; cbv zeta; unfold emitted, settlement, final_state;
    cbn [fst snd];
    (split; [reflexivity|]); (split; [reflexivity|]);
    cbn [last_accepted request is_chanageLease];
    repeat split; try discriminate;
    destruct (remote past _); reflexivity.
Qed.

(** C6: [acquireLease] makes exactly one call, whatever the duration: the
    duration is forwarded as it is, the proposed lease id is the id held by
    the object, the signal defaults to [AbortSignal.none]; the outcome of
    the method is the outcome of that call, and the object is not touched. *)
Theorem acquireLease_forwards (duration : number) (options : option Options)
  (this : Handle) (past : History) :
  let call :=
    {| receiver := _containerOrBlobOperation this;
       request := op_acquireLease
         {| acquire_abortSignal :=
              match abortSignal (options_or_empty options) with
              | Some signal => signal
              | None => AbortSignal_none
              end;
            acquire_duration := duration;
            acquire_modifiedAccessConditions :=
              modifiedAccessConditions (options_or_empty options);
            acquire_proposedLeaseId := leaseId this |} |} in
  acquireLease duration options this past
  = (this, [(call, remote past call)], remote past call).
Proof. intros call. subst call. apply acquireLease_run. Qed.

(** C10: [breakLease] makes exactly one call, with the signal (defaulting to
    [AbortSignal.none]), the break period and the access conditions; the
    lease id held by the object is no part of it, so two objects that differ
    only in their lease id forward the same call and get the same outcome. *)
Theorem breakLease_ignores_leaseId (breakPeriod : number)
  (options : option Options) (past : History) (id1 id2 address : string)
  (operation : Operations ServiceClientOptions) :
  let this1 := {| _leaseId := id1; _url := address;
                  _containerOrBlobOperation := operation |} in
  let this2 := {| _leaseId := id2; _url := address;
                  _containerOrBlobOperation := operation |} in
  let call :=
    {| receiver := operation;
       request := op_breakLease
         {| break_abortSignal :=
              match options with
              | Some {| abortSignal := Some signal |} => signal
              | _ => AbortSignal_none
              end;
            break_breakPeriod := breakPeriod;
            break_modifiedAccessConditions :=
              match options with
              | Some {| modifiedAccessConditions := conditions |} => conditions
              | None => None
              end |} |} in
  breakLease breakPeriod options this1 past
  = (this1, [(call, remote past call)], remote past call)
  /\ emitted (breakLease breakPeriod options this1 past)
     = emitted (breakLease breakPeriod options this2 past)
  /\ settlement (breakLease breakPeriod options this1 past)
     = settlement (breakLease breakPeriod options this2 past)
  /\ forwarded_leaseId (request call) = None.
Proof.
  intros this1 this2 call. subst call. rewrite !breakLease_run.
  unfold aborter_of, options_or_empty.
  destruct options as [[[signal|] conditions]|]; repeat split.
Qed.

Lemma last_accepted_app (held : string) (out1 out2 : History) :
  last_accepted held (out1 ++ out2)
  = last_accepted (last_accepted held out1) out2.
Proof.
  revert held. induction out1 as [|[c r] out1 IH]; intros held.
  - reflexivity.
  - cbn [app last_accepted]. apply IH.
Qed.

(** A session makes its first call, then goes on from the object and the
    history that this call left, whatever its outcome. *)
Lemma session_step
  (i : Invocation AbortSignalLike ModifiedAccessConditions number)
  (rest : list (Invocation AbortSignalLike ModifiedAccessConditions number))
  (this : Handle) (past : History) :
  session (i :: rest) this past
  = (let first := invoke i this past in
     let run := session rest (final_state first) (past ++ emitted first) in
     (final_state run, emitted first ++ emitted run, settlement run)).
Proof.
  cbn [Lease.session]. unfold bind, catch, ret. cbv zeta.
  unfold final_state, emitted, settlement.
  destruct (invoke i this past) as [[this' out] [response|e]]; cbn [fst snd];
    rewrite ?app_nil_r;
    destruct (session rest this' (past ++ out)) as [[this'' out'] r];
    reflexivity.
Qed.

(** What holds of every session. *)
Lemma session_run
  (todo : list (Invocation AbortSignalLike ModifiedAccessConditions number)) :
  forall (this : Handle) (past : History),
    let run := session todo this past in
    _url (final_state run) = _url this
    /\ _containerOrBlobOperation (final_state run)
       = _containerOrBlobOperation this
    /\ _leaseId (final_state run)
       = last_accepted (_leaseId this) (emitted run)
    /\ Forall (fun entry => receiver (fst entry) = _containerOrBlobOperation this)
              (emitted run)
    /\ length (emitted run) = length todo.
Proof.
  induction todo as [|i rest IH]; intros this past run; subst run.
  - cbn. repeat split. constructor.
  - rewrite session_step. cbv zeta.
    destruct (invoke_run i this past)
      as (q & Hout & _ & Hurl & Hop & Hid & _). cbv zeta in *.
    specialize (IH (final_state (invoke i this past))
                   (past ++ emitted (invoke i this past))).
    cbv zeta in IH. destruct IH as (IHurl & IHop & IHid & IHall & IHlen).
    unfold final_state, emitted in *. cbn [fst snd] in *.
    rewrite IHurl, IHop, IHid, Hurl, Hop, Hid, last_accepted_app.
    rewrite Hop in IHall.
    repeat split.
    + rewrite Hout. reflexivity.
    + apply Forall_app. split; [|exact IHall].
      rewrite Hout. constructor; [reflexivity|constructor].
    + rewrite length_app, IHlen, Hout. reflexivity.
Qed.

(** C1: [chanageLease] forwards one change-lease call.  When the service
    fulfils it, the object holds the proposed id from then on and forwards it
    in the calls that follow; when the service rejects it, the object is
    unchanged and the calls that follow forward the id held before. *)
Theorem chanageLease_updates_leaseId_when_accepted
  (proposedLeaseId : string) (options : option Options) (this : Handle)
  (past : History) :
  let call := change_call this proposedLeaseId options in
  let outcome := remote past call in
  let run := chanageLease proposedLeaseId options this past in
  let held := if is_fulfilled outcome then proposedLeaseId else leaseId this in
  emitted run = [(call, outcome)]
  /\ settlement run = outcome
  /\ final_state run
     = (if is_fulfilled outcome
        then {| _leaseId := proposedLeaseId;
                _url := _url this;
                _containerOrBlobOperation := _containerOrBlobOperation this |}
        else this)
  /\ leaseId (final_state run) = held
  /\ forall (later : History) (duration : number) (next : option Options),
       map (fun entry => forwarded_leaseId (request (fst entry)))
           (emitted (acquireLease duration next (final_state run) later))
       = [Some held]
       /\ map (fun entry => forwarded_leaseId (request (fst entry)))
              (emitted (releaseLease next (final_state run) later))
          = [Some held]
       /\ map (fun entry => forwarded_leaseId (request (fst entry)))
              (emitted (renewLease next (final_state run) later))
          = [Some held].
Proof.
  intros call outcome run held. subst run.
  rewrite chanageLease_run. fold call outcome.
  unfold emitted at 1, settlement, final_state. cbn [fst snd].
  assert (Hheld : leaseId (if is_fulfilled outcome
                           then {| _leaseId := proposedLeaseId;
                                   _url := _url this;
                                   _containerOrBlobOperation :=
                                     _containerOrBlobOperation this |}
                           else this) = held)
    by (subst held; destruct (is_fulfilled outcome); reflexivity).
  repeat split; try exact Hheld.
  - rewrite acquireLease_run. cbn. now rewrite <- Hheld.
  - rewrite releaseLease_run. cbn. now rewrite <- Hheld.
  - rewrite renewLease_run. cbn. now rewrite <- Hheld.
Qed.

(** What a method call does to the lease id, told by the call and its
    outcome. *)
Lemma invoke_held
  (i : Invocation AbortSignalLike ModifiedAccessConditions number)
  (this : Handle) (past : History) :
  exists call,
    emitted (invoke i this past) = [(call, remote past call)]
    /\ _leaseId (final_state (invoke i this past))
       = held_after (_leaseId this) [(i, remote past call)]
    /\ forwarded_leaseId (request call)
       = match i with
         | call_breakLease _ _ => None
         | _ => Some (_leaseId this)
         end.
Proof.
  destruct i as [d o|id o|o|o|p o]; cbn [Lease.invoke];
    rewrite ?acquireLease_run, ?chanageLease_run, ?releaseLease_run,
      ?renewLease_run, ?breakLease_run;
    eexists; unfold emitted, final_state; cbn [fst snd];
    (split; [reflexivity|]); cbn [held_after];
    (split; [|reflexivity]);
    first [reflexivity | destruct (remote past _); reflexivity].
Qed.

Lemma session_final_step
  (i : Invocation AbortSignalLike ModifiedAccessConditions number)
  (rest : list (Invocation AbortSignalLike ModifiedAccessConditions number))
  (this : Handle) (past : History) :
  final_state (session (i :: rest) this past)
  = final_state (session rest (final_state (invoke i this past))
                   (past ++ emitted (invoke i this past))).
Proof. rewrite session_step. reflexivity. Qed.

Lemma session_emitted_step
  (i : Invocation AbortSignalLike ModifiedAccessConditions number)
  (rest : list (Invocation AbortSignalLike ModifiedAccessConditions number))
  (this : Handle) (past : History) :
  emitted (session (i :: rest) this past)
  = emitted (invoke i this past)
    ++ emitted (session rest (final_state (invoke i this past))
                  (past ++ emitted (invoke i this past))).
Proof. rewrite session_step. reflexivity. Qed.

(** After a series of calls the object holds the id passed to the last
    [chanageLease] of the series that was fulfilled. *)
Lemma session_held
  (todo : list (Invocation AbortSignalLike ModifiedAccessConditions number)) :
  forall (this : Handle) (past : History),
    _leaseId (final_state (session todo this past))
    = held_after (_leaseId this)
        (combine todo (map snd (emitted (session todo this past)))).
Proof.
  induction todo as [|i rest IH]; intros this past; [reflexivity|].
  rewrite session_final_step, session_emitted_step, IH.
  destruct (invoke_held i this past) as (call & Hout & Hheld & _).
  rewrite Hheld, Hout. reflexivity.
Qed.

(** C4: [acquireLease], [releaseLease], [renewLease] and [breakLease] leave
    the object as it was, whether the service fulfils or rejects the call;
    after any series of calls the url is the one set by the constructor and
    the lease id is the id the object started with until a [chanageLease] is
    fulfilled, and from then on the id passed to the last [chanageLease]
    that was fulfilled, which is also the proposed id of the last
    change-lease request that the service accepted. *)
Theorem leaseId_changes_only_by_accepted_chanageLease
  (todo : list (Invocation AbortSignalLike ModifiedAccessConditions number))
  (this : Handle) (past : History) :
  (forall duration options,
      final_state (acquireLease duration options this past) = this)
  /\ (forall options, final_state (releaseLease options this past) = this)
  /\ (forall options, final_state (renewLease options this past) = this)
  /\ (forall breakPeriod options,
        final_state (breakLease breakPeriod options this past) = this)
  /\ leaseId (final_state (session todo this past))
     = last_accepted (leaseId this) (emitted (session todo this past))
  /\ url (final_state (session todo this past)) = url this
  /\ leaseId (final_state (session todo this past))
     = held_after (leaseId this)
         (combine todo (map snd (emitted (session todo this past)))).
Proof.
  repeat split; intros;
    rewrite ?acquireLease_run, ?releaseLease_run, ?renewLease_run,
      ?breakLease_run; try reflexivity.
  - apply (session_run todo this past).
  - apply (session_run todo this past).
  - apply session_held.
Qed.

(** C5: the constructor selects the container operations for a container
    client and the blob operations otherwise; every method of the object
    makes its one call on the operations selected, and no series of calls
    changes the selection. *)
Theorem constructor_selects_operations (client : Client Pipeline)
  (initial : option string) (drawn : nat)
  (todo : list (Invocation AbortSignalLike ModifiedAccessConditions number))
  (past : History) :
  let this := fst (new_LeaseClient client initial drawn) in
  let clientContext :=
    {| context_url := client_url client;
       context_options := toServiceClientOptions (client_pipeline client) |} in
  let selected :=
    match client_class client with
    | ContainerClient => Container clientContext
    | BlobClient => Blob clientContext
    end in
  _containerOrBlobOperation this = selected
  /\ (forall i history,
        map (fun entry => receiver (fst entry)) (emitted (invoke i this history))
        = [selected])
  /\ _containerOrBlobOperation (final_state (session todo this past)) = selected
  /\ Forall (fun entry => receiver (fst entry) = selected)
            (emitted (session todo this past))
  /\ length (emitted (session todo this past)) = length todo.
Proof.
  intros this clientContext selected.
  assert (Hsel : _containerOrBlobOperation this = selected).
  { subst this. unfold Lease.new_LeaseClient.
    destruct (truthy initial); reflexivity. }
  split; [exact Hsel|]. split.
  - intros i history.
    destruct (invoke_run i this history) as (q & Hout & _). cbv zeta in Hout.
    rewrite Hout, Hsel. reflexivity.
  - rewrite <- Hsel.
    destruct (session_run todo this past) as (_ & Hop & _ & Hall & Hlen).
    repeat split; assumption.
Qed.

(** The constructor without a lease id takes the next identifier of the
    generator. *)
Lemma new_LeaseClient_generates (client : Client Pipeline) (drawn : nat) :
  new_LeaseClient client None drawn
  = ({| _leaseId := uuid_source drawn;
        _url := client_url client;
        _containerOrBlobOperation :=
          _containerOrBlobOperation (fst (new_LeaseClient client None drawn)) |},
     S drawn).
Proof. reflexivity. Qed.

Lemma new_LeaseClients_ids (clients : list (Client Pipeline)) :
  forall drawn,
    map (fun this => leaseId this)
        (fst (new_LeaseClients toServiceClientOptions uuid_source clients drawn))
    = map uuid_source (seq drawn (length clients))
    /\ snd (new_LeaseClients toServiceClientOptions uuid_source clients drawn)
       = drawn + length clients.
Proof.
  induction clients as [|client rest IH]; intros drawn.
  - split; [reflexivity|cbn; lia].
  - cbn [new_LeaseClients]. rewrite new_LeaseClient_generates.
    destruct (IH (S drawn)) as [Hids Hdrawn].
    destruct (new_LeaseClients _ _ rest (S drawn)) as [others drawn'].
    cbn [fst snd] in *. cbn [map length seq leaseId _leaseId].
    rewrite Hids. split; [reflexivity|lia].
Qed.

(** C7: when the generator never yields the empty string and never yields
    the same identifier twice, objects constructed without a lease id hold
    the identifiers drawn from the generator, in the order of construction:
    none is empty and no two are equal. *)
Theorem generated_leaseIds_nonempty_and_distinct
  (clients : list (Client Pipeline)) (drawn : nat) :
  (forall n, uuid_source n <> "") ->
  (forall m n, uuid_source m = uuid_source n -> m = n) ->
  let handles :=
    fst (new_LeaseClients toServiceClientOptions uuid_source clients drawn) in
  map (fun this => leaseId this) handles
  = map uuid_source (seq drawn (length clients))
  /\ Forall (fun id => id <> "") (map (fun this => leaseId this) handles)
  /\ NoDup (map (fun this => leaseId this) handles).
Proof.
  intros Hnonempty Hfresh handles. subst handles.
  destruct (new_LeaseClients_ids clients drawn) as [Hids _].
  rewrite Hids. split; [reflexivity|split].
  - apply Forall_map, Forall_forall. intros n _. apply Hnonempty.
  - apply Injective_map_NoDup; [exact Hfresh|apply seq_NoDup].
Qed.

(** C9: an empty lease id is treated as a missing one and replaced by the
    next identifier of the generator; when the generator never yields the
    empty string, no object comes out of the constructor with an empty
    lease id. *)
Theorem empty_leaseId_is_replaced (client : Client Pipeline)
  (initial : option string) (drawn : nat) :
  (forall n, uuid_source n <> "") ->
  new_LeaseClient client (Some "") drawn = new_LeaseClient client None drawn
  /\ leaseId (fst (new_LeaseClient client (Some "") drawn))
     = fst (generateUuid uuid_source drawn)
  /\ snd (new_LeaseClient client (Some "") drawn)
     = snd (generateUuid uuid_source drawn)
  /\ leaseId (fst (new_LeaseClient client initial drawn)) <> "".
Proof.
  intros Hnonempty. repeat split.
  unfold Lease.new_LeaseClient, truthy.
  destruct initial as [s|]; [|apply Hnonempty].
  destruct (String.eqb_spec s ""); [apply Hnonempty|assumption].
Qed.

(** The one call of a method: on the operations object of the handle, with
    the caller's signal or [AbortSignal.none], the caller's access
    conditions, and the lease id held (none for [breakLease]). *)
Lemma invoke_call
  (i : Invocation AbortSignalLike ModifiedAccessConditions number)
  (this : Handle) (past : History) :
  exists call,
    emitted (invoke i this past) = [(call, remote past call)]
    /\ settlement (invoke i this past) = remote past call
    /\ receiver call = _containerOrBlobOperation this
    /\ forwarded_abortSignal (request call)
       = aborter_of AbortSignal_none (options_or_empty (options_of i))
    /\ forwarded_modifiedAccessConditions (request call)
       = modifiedAccessConditions (options_or_empty (options_of i))
    /\ forwarded_leaseId (request call)
       = match i with
         | call_breakLease _ _ => None
         | _ => Some (_leaseId this)
         end.
Proof.
  destruct i as [d o|id o|o|o|p o]; cbn [Lease.invoke options_of];
    rewrite ?acquireLease_run, ?chanageLease_run, ?releaseLease_run,
      ?renewLease_run, ?breakLease_run;
    eexists; unfold emitted, settlement; cbn [fst snd];
    (split; [reflexivity|]); repeat split.
Qed.

(** X6: every method makes exactly one call and hands its outcome back
    unchanged, response or error; the call carries the caller's abort signal
    ([AbortSignal.none] when there is none) and the caller's access
    conditions, and carries the lease id held by the object, except for
    [breakLease], which carries none. *)
Theorem methods_pass_options_and_outcome_through
  (i : Invocation AbortSignalLike ModifiedAccessConditions number)
  (this : Handle) (past : History) :
  exists call,
    emitted (invoke i this past) = [(call, remote past call)]
    /\ settlement (invoke i this past) = remote past call
    /\ forwarded_abortSignal (request call)
       = match options_of i with
         | Some {| abortSignal := Some signal |} => signal
         | _ => AbortSignal_none
         end
    /\ forwarded_modifiedAccessConditions (request call)
       = match options_of i with
         | Some options => modifiedAccessConditions options
         | None => None
         end
    /\ forwarded_leaseId (request call)
       = (if match i with call_breakLease _ _ => true | _ => false end
          then None else Some (leaseId this)).
Proof.
  destruct (invoke_call i this past)
    as (call & Hout & Hr & _ & Hsignal & Hconditions & Hid).
  exists call. rewrite Hout, Hr, Hsignal, Hconditions, Hid.
  repeat split.
  - unfold aborter_of, options_or_empty.
    destruct (options_of i) as [[[signal|] conditions]|]; reflexivity.
  - destruct (options_of i); reflexivity.
  - destruct i; reflexivity.
Qed.

(** X7: leaving [options] out, passing the empty options, and passing
    [AbortSignal.none] as the signal are the same call: the same request is
    forwarded and the object ends in the same state. *)
Theorem omitted_options_are_defaults
  (i : Invocation AbortSignalLike ModifiedAccessConditions number)
  (this : Handle) (past : History) :
  invoke (with_options i None) this past
  = invoke (with_options i
              (Some {| abortSignal := None;
                       modifiedAccessConditions := None |})) this past
  /\ invoke (with_options i None) this past
     = invoke (with_options i
                 (Some {| abortSignal := Some AbortSignal_none;
                          modifiedAccessConditions := None |})) this past.
Proof.
  destruct i as [d o|id o|o|o|p o]; cbn [with_options Lease.invoke];
    rewrite ?acquireLease_run, ?chanageLease_run, ?releaseLease_run,
      ?renewLease_run, ?breakLease_run;
    split; reflexivity.
Qed.

(** X8: a lease id that is given and not empty is the id the object holds:
    no identifier is generated, the url is the url of the client, and the
    first [acquireLease] proposes the given id to the service. *)
Theorem supplied_leaseId_is_kept (client : Client Pipeline) (given : string)
  (drawn : nat) :
  given <> "" ->
  let this := fst (new_LeaseClient client (Some given) drawn) in
  leaseId this = given
  /\ snd (new_LeaseClient client (Some given) drawn) = drawn
  /\ url this = client_url client
  /\ forall duration options past,
       map (fun entry => forwarded_leaseId (request (fst entry)))
           (emitted (acquireLease duration options this past))
       = [Some given].
Proof.
  intros Hgiven this.
  assert (Hnew : new_LeaseClient client (Some given) drawn
                 = ({| _leaseId := given;
                       _url := client_url client;
                       _containerOrBlobOperation :=
                         _containerOrBlobOperation this |}, drawn)).
  { subst this. unfold Lease.new_LeaseClient, truthy.
    destruct (String.eqb_spec given ""); [contradiction|reflexivity]. }
  subst this. rewrite Hnew. cbn [fst snd].
  split; [reflexivity|]. split; [reflexivity|]. split; [reflexivity|].
  intros duration options past. rewrite acquireLease_run. reflexivity.
Qed.

(** X9: in any series of method calls on one object, each call that carries
    a lease id carries the id the object holds at that point: the id passed
    to the last [chanageLease] among the earlier method calls that was
    fulfilled, or the id the object started with when there is none. *)
Theorem session_forwards_last_accepted_id
  (todo : list (Invocation AbortSignalLike ModifiedAccessConditions number)) :
  forall (this : Handle) (past : History) (k : nat),
    match nth_error (emitted (session todo this past)) k with
    | Some entry =>
        match forwarded_leaseId (request (fst entry)) with
        | Some id =>
            id = held_after (leaseId this)
                   (firstn k
                      (combine todo
                         (map snd (emitted (session todo this past)))))
            /\ id = last_accepted (leaseId this)
                      (firstn k (emitted (session todo this past)))
        | None => True
        end
    | None => True
    end.
Proof.
  induction todo as [|i rest IH]; intros this past k.
  - destruct k; exact I.
  - rewrite session_emitted_step.
    destruct (invoke_held i this past) as (call & Hout & Hheld & Hid).
    destruct (invoke_run i this past) as (q & Hout' & _ & _ & _ & Hlast & _).
    cbv zeta in Hout', Hlast. rewrite Hout in Hout'.
    injection Hout' as Hcall _. rewrite <- Hcall in Hlast. clear q Hcall.
    specialize (IH (final_state (invoke i this past))
                   (past ++ emitted (invoke i this past))).
    rewrite Hout in *. cbn [app map snd combine].
    destruct k as [|k].
    + cbn [nth_error firstn held_after last_accepted fst]. rewrite Hid.
      destruct i; exact I || (split; reflexivity).
    + cbn [nth_error firstn]. specialize (IH k).
      destruct (nth_error _ k) as [entry|]; [|exact I].
      destruct (forwarded_leaseId (request (fst entry))); [|exact I].
      destruct IH as [IHheld IHlast]. split.
      * rewrite IHheld. unfold leaseId. rewrite Hheld. reflexivity.
      * rewrite IHlast. unfold leaseId. rewrite Hlast. reflexivity.
Qed.

End LeaseFacts.

Lemma supplied_leaseId_is_kept_witness :
  "lease-1" <> ""
  /\ Lease.leaseId
       (fst (Lease.new_LeaseClient (fun options : unit => options) Lease.tally
               Lease.a_container_client (Some "lease-1") 0)) = "lease-1".
Proof.
  split; [discriminate|].
  apply (supplied_leaseId_is_kept nat string nat string string unit unit 0
           (fun options => options) Lease.unreachable Lease.tally
           Lease.a_container_client "lease-1" 0).
  discriminate.
Defined.

Lemma tally_length (n : nat) : String.length (Lease.tally n) = S n.
Proof. induction n; cbn; [reflexivity|now rewrite IHn]. Qed.

Lemma tally_nonempty (n : nat) : Lease.tally n <> "".
Proof. destruct n; discriminate. Qed.

Lemma tally_fresh (m n : nat) : Lease.tally m = Lease.tally n -> m = n.
Proof.
  intros H. apply (f_equal String.length) in H.
  rewrite !tally_length in H. now injection H.
Qed.

Lemma generated_leaseIds_nonempty_and_distinct_witness :
  (forall n, Lease.tally n <> "")
  /\ (forall m n, Lease.tally m = Lease.tally n -> m = n)
  /\ NoDup (map (fun this => Lease.leaseId this)
               (fst (Lease.new_LeaseClients (fun options : unit => options)
                       Lease.tally
                       [Lease.a_container_client; Lease.a_container_client] 0))).
Proof.
  split; [exact tally_nonempty|split; [exact tally_fresh|]].
  apply (generated_leaseIds_nonempty_and_distinct unit unit
           (fun options => options) Lease.tally
           [Lease.a_container_client; Lease.a_container_client] 0
           tally_nonempty tally_fresh).
Defined.

Lemma empty_leaseId_is_replaced_witness :
  (forall n, Lease.tally n <> "")
  /\ Lease.leaseId (fst (Lease.new_LeaseClient (fun options : unit => options)
                           Lease.tally Lease.a_container_client (Some "") 3))
     = "uuuu".
Proof.
  split; [exact tally_nonempty|].
  destruct (empty_leaseId_is_replaced unit unit (fun options => options)
              Lease.tally Lease.a_container_client None 3 tally_nonempty)
    as (_ & Hid & _).
  rewrite Hid. reflexivity.
Defined.
